(** * Package [bitmask] of goutils: sets of small integer IDs packed in a Go [int]

    The four exported functions of [bitmask/bitmask.go] ([Encode], [Decode],
    [HasBit], [ToggleBit]) are embedded over [Z].  A Go [int] of width [W] is an
    integer of the interval [[-2^(W-1), 2^(W-1) - 1]]; [&], [|] and [^] are
    [Z.land], [Z.lor] and [Z.lxor] (two's complement on both sides), [>>] on a
    signed operand is the arithmetic shift [Z.shiftr], and [<<] drops the bits
    that do not fit and panics on a negative count. *)

From Stdlib Require Import ZArith List Bool Lia Sorted.
Import ListNotations.
Local Open Scope Z_scope.

(** ** Outcome of a call *)

(** A call either returns, or panics (Go's run-time panic on a negative shift
    count), or is still inside its loop when the fuel of the model is spent. *)
Inductive result (A : Type) : Type :=
| Ret (a : A)
| Panic
| OutOfFuel.

Arguments Ret {A} a.
Arguments Panic {A}.
Arguments OutOfFuel {A}.

Definition bind {A B : Type} (c : result A) (k : A -> result B) : result B :=
  match c with
  | Ret a => k a
  | Panic => Panic
  | OutOfFuel => OutOfFuel
  end.

Notation "x <- c ;; k" := (bind c (fun x => k))
  (at level 61, c at next level, right associativity).

(** A fuelled computation returns [a] when some amount of fuel yields [Ret a];
    it diverges when no amount of fuel ever yields an outcome. *)
Definition returns {A : Type} (run : nat -> result A) (a : A) : Prop :=
  exists fuel, run fuel = Ret a.

Definition diverges {A : Type} (run : nat -> result A) : Prop :=
  forall fuel, run fuel = OutOfFuel.

(** ** Go's [int] at width [W] *)

Section Width.

Variable W : Z.

Definition min_int : Z := - 2 ^ (W - 1).
Definition max_int : Z := 2 ^ (W - 1) - 1.

Definition is_int (z : Z) : Prop := min_int <= z <= max_int.

(** Two's complement wrap-around of a mathematical integer into [int]. *)
Definition wrap (z : Z) : Z :=
  let u := z mod 2 ^ W in
  if u <? 2 ^ (W - 1) then u else u - 2 ^ W.

(** [x << n] for a signed count [n]: panics when [n < 0]; otherwise the
    operand is shifted [n] times and truncated to the width. *)
Definition shl (x n : Z) : result Z :=
  if n <? 0 then Panic else Ret (wrap (Z.shiftl x n)).

(** An identifier of the valid domain [[0, W-1]]. *)
Definition valid_id (id : Z) : Prop := 0 <= id < W.

(** ** The functions of [bitmask.go] *)

(** [for _, id := range ids { mask |= 1 << id }] with [mask] as accumulator. *)
Fixpoint Encode_loop (ids : list Z) (mask : Z) : result Z :=
  match ids with
  | [] => Ret mask
  | id :: rest => b <- shl 1 id ;; Encode_loop rest (Z.lor mask b)
  end.

Definition Encode (ids : list Z) : result Z := Encode_loop ids 0.

(** [for bit := 0; mask != 0; bit++ { if mask&1 == 1 { ids = append(ids, bit) };
    mask >>= 1 }]: one unit of fuel per evaluation of the loop condition. *)
Fixpoint Decode_loop (fuel : nat) (mask bit : Z) (ids : list Z)
  : result (list Z) :=
  match fuel with
  | O => OutOfFuel
  | S fuel' =>
      if negb (mask =? 0) then
        let ids' := if Z.land mask 1 =? 1 then ids ++ [bit] else ids in
        Decode_loop fuel' (Z.shiftr mask 1) (wrap (bit + 1)) ids'
      else Ret ids
  end.

Definition Decode (fuel : nat) (mask : Z) : result (list Z) :=
  Decode_loop fuel mask 0 [].

Definition HasBit (mask id : Z) : result bool :=
  b <- shl 1 id ;; Ret (negb (Z.land mask b =? 0)).

Definition ToggleBit (mask id : Z) : result Z :=
  b <- shl 1 id ;; Ret (Z.lxor mask b).

End Width.

(** The width of [int] on the 64-bit targets of Go; the test file's typed
    constant [1 << 31] only fits an [int] of this width. *)
Definition int_size : Z := 64.

(** ** Reference notions used to state the properties *)

(** Ascending, duplicate-free form of a list: insertion that skips an element
    already present. *)
Fixpoint insert_uniq (x : Z) (l : list Z) : list Z :=
  match l with
  | [] => [x]
  | y :: l' =>
      if x <? y then x :: l
      else if x =? y then l
      else y :: insert_uniq x l'
  end.

Definition sort_dedup (ids : list Z) : list Z := fold_right insert_uniq [] ids.

(** Removal of repeated elements, keeping the first occurrence of each. *)
Fixpoint dedup (l : list Z) : list Z :=
  match l with
  | [] => []
  | x :: l' => x :: remove Z.eq_dec x (dedup l')
  end.

(** The positions [start, start+1, ..., start+n-1]. *)
Fixpoint positions (start : Z) (n : nat) : list Z :=
  match n with
  | O => []
  | S n' => start :: positions (start + 1) n'
  end.

(** The set bits of [mask] among the positions [start .. start+n-1]. *)
Definition set_bits (mask start : Z) (n : nat) : list Z :=
  filter (Z.testbit mask) (positions start n).

(** * Properties *)

(** ** Arithmetic of the width *)

Section IntFacts.

Variable W : Z.
Hypothesis W_gt_1 : 1 < W.

Lemma pow2_half_pos : 0 < 2 ^ (W - 1).
Proof. apply Z.pow_pos_nonneg; lia. Qed.

Lemma pow2_width : 2 ^ W = 2 * 2 ^ (W - 1).
Proof.
  replace W with (Z.succ (W - 1)) at 1 by lia.
  apply Z.pow_succ_r; lia.
Qed.

Lemma width_le_half : W <= 2 ^ (W - 1).
Proof.
  assert (H : forall n, 0 <= n -> n + 1 <= 2 ^ n).
  { intros n Hn. pattern n. apply natlike_ind; trivial.
    - simpl. lia.
    - intros x Hx IH. rewrite Z.pow_succ_r by lia. lia. }
  specialize (H (W - 1)). lia.
Qed.

Lemma wrap_is_int (z : Z) : is_int W (wrap W z).
Proof.
  unfold is_int, wrap, min_int, max_int.
  pose proof pow2_half_pos as Hh. pose proof pow2_width as Hw.
  assert (Hu : 0 <= z mod 2 ^ W < 2 ^ W) by (apply Z.mod_pos_bound; lia).
  destruct (z mod 2 ^ W <? 2 ^ (W - 1)) eqn:E;
    [apply Z.ltb_lt in E | apply Z.ltb_ge in E]; lia.
Qed.

Lemma wrap_small (z : Z) : is_int W z -> wrap W z = z.
Proof.
  unfold is_int, wrap, min_int, max_int. intros Hz.
  pose proof pow2_half_pos as Hh. pose proof pow2_width as Hw.
  destruct (Z.neg_nonneg_cases z) as [Hneg | Hpos].
  - assert (E : z mod 2 ^ W = z + 2 ^ W).
    { symmetry. apply Z.mod_unique with (q := -1); lia. }
    rewrite E.
    destruct (z + 2 ^ W <? 2 ^ (W - 1)) eqn:E';
      [apply Z.ltb_lt in E' | apply Z.ltb_ge in E']; lia.
  - rewrite Z.mod_small by lia.
    destruct (z <? 2 ^ (W - 1)) eqn:E';
      [apply Z.ltb_lt in E' | apply Z.ltb_ge in E']; lia.
Qed.

(** The value of [1 << id] for each range of a non-negative count. *)
Lemma wrap_pow2_low (id : Z) : 0 <= id < W - 1 -> wrap W (2 ^ id) = 2 ^ id.
Proof.
  intros Hid. apply wrap_small. unfold is_int, min_int, max_int.
  assert (0 < 2 ^ id) by (apply Z.pow_pos_nonneg; lia).
  assert (2 ^ id < 2 ^ (W - 1)) by (apply Z.pow_lt_mono_r; lia).
  pose proof pow2_half_pos. lia.
Qed.

Lemma wrap_pow2_top : wrap W (2 ^ (W - 1)) = min_int W.
Proof.
  unfold wrap, min_int.
  pose proof pow2_half_pos as Hh. pose proof pow2_width as Hw.
  rewrite Z.mod_small by lia.
  rewrite Z.ltb_irrefl. lia.
Qed.

Lemma wrap_pow2_high (id : Z) : W <= id -> wrap W (2 ^ id) = 0.
Proof.
  intros Hid. unfold wrap.
  pose proof pow2_half_pos as Hh.
  replace id with ((id - W) + W) by lia.
  rewrite Z.pow_add_r by lia.
  rewrite Z.mod_mul by lia.
  destruct (0 <? 2 ^ (W - 1)) eqn:E; trivial.
  apply Z.ltb_ge in E. lia.
Qed.

Lemma shl_1 (id : Z) : 0 <= id -> shl W 1 id = Ret (wrap W (2 ^ id)).
Proof.
  intros Hid. unfold shl.
  destruct (id <? 0) eqn:E; [apply Z.ltb_lt in E; lia |].
  rewrite Z.shiftl_1_l. reflexivity.
Qed.

Lemma shl_negative (x id : Z) : id < 0 -> shl W x id = Panic.
Proof.
  intros Hid. unfold shl. apply Z.ltb_lt in Hid. rewrite Hid. reflexivity.
Qed.

End IntFacts.

(** ** Bits of an [int] *)

Section IntBits.

Variable W : Z.
Hypothesis W_gt_1 : 1 < W.

Lemma testbit_min_int (i : Z) :
  0 <= i -> Z.testbit (min_int W) i = (W - 1 <=? i).
Proof.
  intros Hi. unfold min_int.
  rewrite Z.bits_opp by lia.
  rewrite <- Z.ones_equiv, Z.testbit_ones by lia.
  destruct (W - 1 <=? i) eqn:E; [apply Z.leb_le in E | apply Z.leb_gt in E].
  - replace (i <? W - 1) with false by (symmetry; apply Z.ltb_ge; lia).
    now rewrite andb_false_r.
  - replace (i <? W - 1) with true by (symmetry; apply Z.ltb_lt; lia).
    replace (0 <=? i) with true by (symmetry; apply Z.leb_le; lia).
    reflexivity.
Qed.

(** Within the width, [1 << id] has exactly bit [id] set. *)
Lemma testbit_shl1_low (id i : Z) :
  valid_id W id -> 0 <= i < W ->
  Z.testbit (wrap W (2 ^ id)) i = (i =? id).
Proof.
  unfold valid_id. intros Hid Hi.
  destruct (Z.eq_dec id (W - 1)) as [-> | Hne].
  - rewrite (wrap_pow2_top W W_gt_1), testbit_min_int by lia.
    destruct (i =? W - 1) eqn:E; [apply Z.eqb_eq in E | apply Z.eqb_neq in E].
    + apply Z.leb_le. lia.
    + apply Z.leb_gt. lia.
  - rewrite (wrap_pow2_low W W_gt_1) by lia.
    rewrite Z.pow2_bits_eqb by lia. apply Z.eqb_sym.
Qed.

(** At and above the top position, [1 << id] is set only for [id = W-1]
    (the sign bit and its extension). *)
Lemma testbit_shl1_high (id i : Z) :
  valid_id W id -> W - 1 <= i ->
  Z.testbit (wrap W (2 ^ id)) i = (id =? W - 1).
Proof.
  unfold valid_id. intros Hid Hi.
  destruct (Z.eq_dec id (W - 1)) as [-> | Hne].
  - rewrite (wrap_pow2_top W W_gt_1), testbit_min_int, Z.eqb_refl by lia.
    apply Z.leb_le. lia.
  - rewrite (wrap_pow2_low W W_gt_1) by lia.
    rewrite Z.pow2_bits_eqb by lia.
    replace (id =? W - 1) with false by (symmetry; apply Z.eqb_neq; lia).
    apply Z.eqb_neq. lia.
Qed.

(** A non-negative [int] has no bit at or above position [W-1]. *)
Lemma testbit_nonneg_high (m i : Z) :
  0 <= m < 2 ^ (W - 1) -> W - 1 <= i -> Z.testbit m i = false.
Proof.
  intros Hm Hi.
  destruct (Z.eq_dec m 0) as [-> | Hne]; [apply Z.bits_0 |].
  apply Z.bits_above_log2; [lia |].
  assert (Z.log2 m < W - 1) by (apply Z.log2_lt_pow2; lia).
  lia.
Qed.

(** Every position from [W-1] on carries the sign of an [int]. *)
Lemma is_int_sign_bit (m i : Z) :
  is_int W m -> W - 1 <= i -> Z.testbit m i = (m <? 0).
Proof.
  unfold is_int, min_int, max_int. intros Hm Hi.
  destruct (m <? 0) eqn:E; [apply Z.ltb_lt in E | apply Z.ltb_ge in E].
  - rewrite <- (Z.lnot_involutive m), Z.lnot_spec by lia.
    rewrite testbit_nonneg_high; trivial.
    unfold Z.lnot. lia.
  - apply testbit_nonneg_high; lia.
Qed.

Lemma nonneg_bits_bound (m : Z) :
  0 <= m ->
  (forall i, W - 1 <= i -> Z.testbit m i = Z.testbit m (W - 1)) ->
  m < 2 ^ (W - 1).
Proof.
  intros Hm Hbits.
  destruct (Z.lt_ge_cases m (2 ^ (W - 1))) as [Hlt | Hge]; trivial.
  exfalso.
  pose proof (pow2_half_pos W W_gt_1) as Hh.
  assert (Hpos : 0 < m) by lia.
  assert (Hlog : W - 1 <= Z.log2 m) by (apply Z.log2_le_pow2; lia).
  pose proof (Z.bit_log2 m Hpos) as Htop.
  assert (Habove : Z.testbit m (Z.succ (Z.log2 m)) = false)
    by (apply Z.bits_above_log2; lia).
  rewrite Hbits in Htop by lia.
  rewrite Hbits in Habove by lia.
  congruence.
Qed.

(** An integer whose bits are constant from position [W-1] on is an [int]. *)
Lemma bits_is_int (m : Z) :
  (forall i, W - 1 <= i -> Z.testbit m i = Z.testbit m (W - 1)) ->
  is_int W m.
Proof.
  intros Hbits. unfold is_int, min_int, max_int.
  destruct (Z.neg_nonneg_cases m) as [Hneg | Hpos].
  - assert (Z.lnot m < 2 ^ (W - 1)).
    { apply nonneg_bits_bound; [unfold Z.lnot; lia |].
      intros i Hi. rewrite !Z.lnot_spec by lia. now rewrite Hbits. }
    unfold Z.lnot in *. lia.
  - pose proof (nonneg_bits_bound m Hpos Hbits). lia.
Qed.

Lemma is_int_bits (m i : Z) :
  is_int W m -> W - 1 <= i -> Z.testbit m i = Z.testbit m (W - 1).
Proof.
  intros Hm Hi. rewrite !(is_int_sign_bit m) by (trivial; lia). reflexivity.
Qed.

Lemma is_int_lor (a b : Z) : is_int W a -> is_int W b -> is_int W (Z.lor a b).
Proof.
  intros Ha Hb. apply bits_is_int. intros i Hi.
  rewrite !Z.lor_spec, (is_int_bits a i), (is_int_bits b i); trivial.
Qed.

Lemma is_int_lxor (a b : Z) : is_int W a -> is_int W b -> is_int W (Z.lxor a b).
Proof.
  intros Ha Hb. apply bits_is_int. intros i Hi.
  rewrite !Z.lxor_spec, (is_int_bits a i), (is_int_bits b i); trivial.
Qed.

Lemma is_int_land (a b : Z) : is_int W a -> is_int W b -> is_int W (Z.land a b).
Proof.
  intros Ha Hb. apply bits_is_int. intros i Hi.
  rewrite !Z.land_spec, (is_int_bits a i), (is_int_bits b i); trivial.
Qed.

Lemma is_int_0 : is_int W 0.
Proof.
  unfold is_int, min_int, max_int. pose proof (pow2_half_pos W W_gt_1). lia.
Qed.

Lemma is_int_shiftr (a : Z) : is_int W a -> is_int W (Z.shiftr a 1).
Proof.
  unfold is_int, min_int, max_int. intros Ha.
  rewrite Z.shiftr_div_pow2 by lia. change (2 ^ 1) with 2.
  pose proof (pow2_half_pos W W_gt_1).
  pose proof (Z.div_mod a 2 ltac:(lia)).
  pose proof (Z.mod_pos_bound a 2 ltac:(lia)).
  lia.
Qed.

End IntBits.

(** ** Ascending duplicate-free lists *)

Section SortedLists.

Lemma In_insert_uniq (x y : Z) (l : list Z) :
  In y (insert_uniq x l) <-> y = x \/ In y l.
Proof.
  induction l as [| z l IH]; simpl.
  - intuition.
  - destruct (x <? z) eqn:Hlt; simpl; [intuition |].
    destruct (x =? z) eqn:Heq; simpl.
    + apply Z.eqb_eq in Heq. subst z. intuition.
    + rewrite IH. intuition.
Qed.

Lemma In_sort_dedup (y : Z) (ids : list Z) : In y (sort_dedup ids) <-> In y ids.
Proof.
  induction ids as [| x ids IH]; simpl; [reflexivity |].
  rewrite In_insert_uniq, IH. intuition.
Qed.

Lemma insert_uniq_sorted (x : Z) (l : list Z) :
  StronglySorted Z.lt l -> StronglySorted Z.lt (insert_uniq x l).
Proof.
  induction 1 as [| z l Hs IH Hall]; simpl.
  - repeat constructor.
  - destruct (x <? z) eqn:Hlt.
    + apply Z.ltb_lt in Hlt. constructor; [now constructor |].
      constructor; trivial.
      eapply Forall_impl; [| exact Hall]. simpl. intros; lia.
    + apply Z.ltb_ge in Hlt.
      destruct (x =? z) eqn:Heq; [now constructor |].
      apply Z.eqb_neq in Heq.
      constructor; trivial.
      apply Forall_forall. intros y Hy.
      apply In_insert_uniq in Hy. destruct Hy as [-> | Hy]; [lia |].
      rewrite Forall_forall in Hall. now apply Hall.
Qed.

Lemma sort_dedup_sorted (ids : list Z) : StronglySorted Z.lt (sort_dedup ids).
Proof.
  induction ids as [| x ids IH]; simpl; [constructor |].
  now apply insert_uniq_sorted.
Qed.

(** A strictly ascending list is determined by its elements. *)
Lemma sorted_unique (l1 l2 : list Z) :
  StronglySorted Z.lt l1 -> StronglySorted Z.lt l2 ->
  (forall x, In x l1 <-> In x l2) -> l1 = l2.
Proof.
  intros H1. revert l2.
  induction H1 as [| a l1 Hs1 IH Hall1]; intros l2 H2 Hmem.
  - destruct l2 as [| b l2]; trivial.
    exfalso. apply (Hmem b). now left.
  - destruct H2 as [| b l2 Hs2 Hall2].
    + exfalso. apply (Hmem a). now left.
    + rewrite Forall_forall in Hall1, Hall2.
      assert (a = b).
      { destruct (proj1 (Hmem a) (or_introl eq_refl)) as [E | Hin]; [easy |].
        destruct (proj2 (Hmem b) (or_introl eq_refl)) as [E | Hin']; [easy |].
        specialize (Hall1 _ Hin'). specialize (Hall2 _ Hin). lia. }
      subst b. f_equal. apply IH; trivial.
      intros x. split; intros Hx.
      * destruct (proj1 (Hmem x) (or_intror Hx)) as [E | Hin]; trivial.
        specialize (Hall1 _ Hx). lia.
      * destruct (proj2 (Hmem x) (or_intror Hx)) as [E | Hin]; trivial.
        specialize (Hall2 _ Hx). lia.
Qed.

Lemma In_dedup (y : Z) (l : list Z) : In y (dedup l) <-> In y l.
Proof.
  induction l as [| x l IH]; simpl; [reflexivity |].
  rewrite <- IH. split.
  - intros [E | Hin]; [now left | right]. now apply in_remove in Hin.
  - intros [E | Hin]; [now left |].
    destruct (Z.eq_dec x y) as [E | Hne]; [now left | right].
    apply in_in_remove; trivial. congruence.
Qed.

Lemma dedup_NoDup (l : list Z) : NoDup (dedup l).
Proof.
  induction l as [| x l IH]; simpl; constructor.
  - apply remove_In.
  - clear -IH. induction IH as [| y l' Hy Hl' IH']; simpl; [constructor |].
    destruct (Z.eq_dec x y); trivial.
    constructor; trivial. intros Hin. apply in_remove in Hin. tauto.
Qed.

Lemma In_positions (i start : Z) (n : nat) :
  In i (positions start n) <-> start <= i < start + Z.of_nat n.
Proof.
  revert start. induction n as [| n IH]; intros start; simpl positions.
  - simpl. lia.
  - simpl In. rewrite IH. lia.
Qed.

Lemma positions_sorted (start : Z) (n : nat) :
  StronglySorted Z.lt (positions start n).
Proof.
  revert start. induction n as [| n IH]; intros start; simpl; constructor.
  - apply IH.
  - apply Forall_forall. intros x Hx. apply In_positions in Hx. lia.
Qed.

Lemma filter_sorted (f : Z -> bool) (l : list Z) :
  StronglySorted Z.lt l -> StronglySorted Z.lt (filter f l).
Proof.
  induction 1 as [| a l Hs IH Hall]; simpl; [constructor |].
  destruct (f a); trivial.
  constructor; trivial.
  rewrite Forall_forall in *. intros x Hx.
  apply filter_In in Hx. now apply Hall.
Qed.

Lemma In_set_bits (mask start i : Z) (n : nat) :
  In i (set_bits mask start n) <->
  start <= i < start + Z.of_nat n /\ Z.testbit mask i = true.
Proof. unfold set_bits. now rewrite filter_In, In_positions. Qed.

Lemma set_bits_sorted (mask start : Z) (n : nat) :
  StronglySorted Z.lt (set_bits mask start n).
Proof. apply filter_sorted, positions_sorted. Qed.

Lemma set_bits_succ (mask start : Z) (n : nat) :
  set_bits mask start (S n) =
  (if Z.testbit mask start then [start] else []) ++ set_bits mask (start + 1) n.
Proof.
  unfold set_bits. simpl. now destruct (Z.testbit mask start).
Qed.

Lemma set_bits_none (mask start : Z) (n : nat) :
  (forall i, start <= i -> Z.testbit mask i = false) ->
  set_bits mask start n = [].
Proof.
  intros Hclear.
  destruct (set_bits mask start n) as [| i l] eqn:E; trivial.
  assert (Hin : In i (set_bits mask start n)) by (rewrite E; now left).
  apply In_set_bits in Hin. destruct Hin as [Hi Hbit].
  rewrite Hclear in Hbit by lia. discriminate.
Qed.

End SortedLists.

(** ** What each function computes *)

Section FunctionSpecs.

Variable W : Z.
Hypothesis W_gt_1 : 1 < W.

Lemma is_int_shl1 (id : Z) : is_int W (wrap W (2 ^ id)).
Proof. apply wrap_is_int, W_gt_1. Qed.

(** Two [int]s with the same bits inside the width are equal. *)
Lemma is_int_eq_bits (a b : Z) :
  is_int W a -> is_int W b ->
  (forall i, 0 <= i < W -> Z.testbit a i = Z.testbit b i) -> a = b.
Proof.
  intros Ha Hb Hbits. apply Z.bits_inj'. intros i Hi.
  destruct (Z.lt_ge_cases i W) as [Hlt | Hge]; [apply Hbits; lia |].
  rewrite (is_int_bits W W_gt_1 a i), (is_int_bits W W_gt_1 b i) by (trivial; lia).
  apply Hbits. lia.
Qed.

(** *** HasBit *)

Lemma HasBit_testbit (mask id : Z) :
  is_int W mask -> valid_id W id ->
  HasBit W mask id = Ret (Z.testbit mask id).
Proof.
  intros Hm Hid. pose proof Hid as [Hid0 HidW].
  unfold HasBit. rewrite (shl_1 W) by lia. simpl. f_equal.
  destruct (Z.testbit mask id) eqn:Hbit.
  - apply negb_true_iff, Z.eqb_neq. intros Hz.
    assert (Hb : Z.testbit (Z.land mask (wrap W (2 ^ id))) id = true).
    { rewrite Z.land_spec, Hbit, (testbit_shl1_low W W_gt_1) by (trivial; lia).
      now rewrite Z.eqb_refl. }
    rewrite Hz, Z.bits_0 in Hb. discriminate.
  - apply negb_false_iff, Z.eqb_eq.
    apply (is_int_eq_bits _ 0).
    + apply (is_int_land W W_gt_1); trivial. apply is_int_shl1.
    + apply (is_int_0 W W_gt_1).
    + intros i Hi. rewrite Z.land_spec, Z.bits_0.
      rewrite (testbit_shl1_low W W_gt_1) by trivial.
      destruct (i =? id) eqn:E; [| apply andb_false_r].
      apply Z.eqb_eq in E. subst i. now rewrite Hbit.
Qed.

Lemma HasBit_panic (mask id : Z) : id < 0 -> HasBit W mask id = Panic.
Proof. intros Hid. unfold HasBit. now rewrite shl_negative. Qed.

(** *** ToggleBit *)

Lemma ToggleBit_ret (mask id : Z) :
  0 <= id -> ToggleBit W mask id = Ret (Z.lxor mask (wrap W (2 ^ id))).
Proof. intros Hid. unfold ToggleBit. now rewrite (shl_1 W). Qed.

Lemma ToggleBit_is_int (mask id : Z) :
  is_int W mask -> is_int W (Z.lxor mask (wrap W (2 ^ id))).
Proof. intros Hm. apply (is_int_lxor W W_gt_1); trivial. apply is_int_shl1. Qed.

Lemma ToggleBit_panic (mask id : Z) : id < 0 -> ToggleBit W mask id = Panic.
Proof. intros Hid. unfold ToggleBit. now rewrite shl_negative. Qed.

(** *** Encode *)

(** On non-negative identifiers the loop never panics; the returned mask is an
    [int] whose bits are those of the initial mask together with those of every
    [1 << id]. *)
Lemma Encode_loop_spec (ids : list Z) (mask : Z) :
  Forall (fun id => 0 <= id) ids -> is_int W mask ->
  exists m, Encode_loop W ids mask = Ret m /\ is_int W m /\
    forall i, 0 <= i ->
      Z.testbit m i =
      Z.testbit mask i || existsb (fun id => Z.testbit (wrap W (2 ^ id)) i) ids.
Proof.
  intros Hids. revert mask.
  induction Hids as [| id ids Hid Hids IH]; intros mask Hm; simpl.
  - exists mask. split; [reflexivity | split; [exact Hm |]].
    intros i _. now rewrite orb_false_r.
  - rewrite (shl_1 W) by trivial. simpl.
    destruct (IH (Z.lor mask (wrap W (2 ^ id)))) as (m & Hrun & Hint & Hbits).
    { apply (is_int_lor W W_gt_1); trivial. apply is_int_shl1. }
    exists m. split; [exact Hrun | split; [exact Hint |]].
    intros i Hi. rewrite Hbits, Z.lor_spec by trivial. now rewrite orb_assoc.
Qed.

Lemma existsb_eqb_In (i : Z) (ids : list Z) :
  existsb (Z.eqb i) ids = true <-> In i ids.
Proof.
  rewrite existsb_exists. split.
  - intros (x & Hx & E). apply Z.eqb_eq in E. now subst.
  - intros Hi. exists i. split; trivial. apply Z.eqb_refl.
Qed.

(** On identifiers of the valid domain, bit [i] of the encoding (for [i]
    inside the width) tells whether [i] occurs in the input. *)
Lemma Encode_valid (ids : list Z) :
  Forall (valid_id W) ids ->
  exists m, Encode W ids = Ret m /\ is_int W m /\
    forall i, 0 <= i < W -> Z.testbit m i = existsb (Z.eqb i) ids.
Proof.
  intros Hids.
  destruct (Encode_loop_spec ids 0) as (m & Hrun & Hint & Hbits).
  { eapply Forall_impl; [| exact Hids]. unfold valid_id. simpl. intros; lia. }
  { apply (is_int_0 W W_gt_1). }
  exists m. split; [exact Hrun | split; [exact Hint |]].
  intros i Hi. rewrite Hbits, Z.bits_0 by lia. simpl.
  clear Hbits Hrun. induction Hids as [| id ids Hid Hids IH]; simpl; trivial.
  rewrite IH. f_equal. now apply (testbit_shl1_low W W_gt_1).
Qed.

(** A negative identifier anywhere in the input makes the loop panic. *)
Lemma Encode_loop_panic (ids : list Z) :
  Exists (fun id => id < 0) ids ->
  forall mask, Encode_loop W ids mask = Panic.
Proof.
  induction ids as [| id ids IH]; intros Hex mask; [inversion Hex |]. simpl.
  destruct (Z.lt_ge_cases id 0) as [Hneg | Hpos].
  - now rewrite shl_negative.
  - rewrite (shl_1 W) by trivial. simpl. apply IH.
    inversion Hex; subst; [lia | trivial].
Qed.

Lemma nonneg_or_negative (ids : list Z) :
  Forall (fun id => 0 <= id) ids \/ Exists (fun id => id < 0) ids.
Proof.
  induction ids as [| id ids [IH | IH]].
  - left. constructor.
  - destruct (Z.lt_ge_cases id 0); [right; now left | left; now constructor].
  - right. now right.
Qed.

Lemma existsb_same_members (f : Z -> bool) (l1 l2 : list Z) :
  (forall x, In x l1 <-> In x l2) -> existsb f l1 = existsb f l2.
Proof.
  intros Hmem. apply eq_true_iff_eq. rewrite !existsb_exists.
  split; intros (x & Hx & Hf); exists x; split; trivial; now apply Hmem.
Qed.

(** The outcome of [Encode] depends only on which identifiers occur. *)
Lemma Encode_same_members (ids1 ids2 : list Z) :
  (forall x, In x ids1 <-> In x ids2) -> Encode W ids1 = Encode W ids2.
Proof.
  intros Hmem. unfold Encode.
  destruct (nonneg_or_negative ids1) as [H1 | H1].
  - assert (H2 : Forall (fun id => 0 <= id) ids2).
    { rewrite Forall_forall in *. intros x Hx. now apply H1, Hmem. }
    destruct (Encode_loop_spec ids1 0 H1 (is_int_0 W W_gt_1)) as (m1 & E1 & _ & B1).
    destruct (Encode_loop_spec ids2 0 H2 (is_int_0 W W_gt_1)) as (m2 & E2 & _ & B2).
    rewrite E1, E2. f_equal. apply Z.bits_inj'. intros i Hi.
    rewrite B1, B2 by trivial. f_equal. now apply existsb_same_members.
  - assert (H2 : Exists (fun id => id < 0) ids2).
    { rewrite Exists_exists in *. destruct H1 as (x & Hx & Hneg).
      exists x. split; trivial. now apply Hmem. }
    now rewrite !Encode_loop_panic.
Qed.

End FunctionSpecs.

(** ** The loop of [Decode] *)

Section DecodeSpecs.

Variable W : Z.
Hypothesis W_gt_1 : 1 < W.

(** [mask & 1 == 1] reads bit 0. *)
Lemma land_1_testbit (x : Z) : (Z.land x 1 =? 1) = Z.testbit x 0.
Proof.
  change 1 with (Z.ones 1) at 1.
  rewrite Z.land_ones by lia. change (2 ^ 1) with 2.
  rewrite <- Z.bit0_mod. now destruct (Z.testbit x 0).
Qed.

(** More fuel never changes an outcome already reached. *)
Lemma Decode_loop_fuel_mono (fuel fuel' : nat) (mask bit : Z) (ids r : list Z) :
  (fuel <= fuel')%nat ->
  Decode_loop W fuel mask bit ids = Ret r ->
  Decode_loop W fuel' mask bit ids = Ret r.
Proof.
  revert fuel' mask bit ids.
  induction fuel as [| fuel IH]; intros fuel' mask bit ids Hle; simpl;
    [discriminate |].
  destruct fuel' as [| fuel']; [lia |]. simpl.
  destruct (negb (mask =? 0)); trivial.
  apply IH. lia.
Qed.

(** The loop contains no operation that can panic. *)
Lemma Decode_loop_no_panic (fuel : nat) (mask bit : Z) (ids : list Z) :
  Decode_loop W fuel mask bit ids <> Panic.
Proof.
  revert mask bit ids.
  induction fuel as [| fuel IH]; intros mask bit ids; simpl; [discriminate |].
  destruct (negb (mask =? 0)); [apply IH | discriminate].
Qed.

(** On a negative mask the arithmetic shift keeps the sign, so the loop
    condition [mask != 0] holds at every iteration. *)
Lemma Decode_loop_negative (fuel : nat) (mask bit : Z) (ids : list Z) :
  mask < 0 -> Decode_loop W fuel mask bit ids = OutOfFuel.
Proof.
  revert mask bit ids.
  induction fuel as [| fuel IH]; intros mask bit ids Hneg; simpl; trivial.
  replace (mask =? 0) with false by (symmetry; apply Z.eqb_neq; lia).
  simpl. apply IH. now apply Z.shiftr_neg.
Qed.

(** On a non-negative mask [m0] of which [bit] positions have been consumed
    and at most [n] remain, the loop appends the remaining set positions in
    ascending order and returns. *)
Lemma Decode_loop_nonneg (n : nat) :
  forall (fuel : nat) (m0 bit : Z) (ids : list Z),
    0 <= m0 -> 0 <= bit -> Z.shiftr m0 bit < 2 ^ Z.of_nat n ->
    (n < fuel)%nat -> bit + Z.of_nat n <= max_int W ->
    Decode_loop W fuel (Z.shiftr m0 bit) bit ids =
    Ret (ids ++ set_bits m0 bit n).
Proof.
  induction n as [| n IH]; intros fuel m0 bit ids Hm Hbit Hlt Hfuel Hmax;
    (destruct fuel as [| fuel]; [lia |]); simpl Decode_loop.
  - assert (0 <= Z.shiftr m0 bit) by (now apply Z.shiftr_nonneg).
    change (2 ^ Z.of_nat 0) with 1 in Hlt.
    replace (Z.shiftr m0 bit) with 0 by lia. simpl.
    unfold set_bits. simpl. now rewrite app_nil_r.
  - destruct (Z.shiftr m0 bit =? 0) eqn:Hz; simpl negb; cbv iota.
    + apply Z.eqb_eq in Hz. rewrite set_bits_none; [now rewrite app_nil_r |].
      intros i Hi. replace i with ((i - bit) + bit) by lia.
      rewrite <- Z.shiftr_spec by lia. rewrite Hz. apply Z.bits_0.
    + cbv zeta. rewrite land_1_testbit, Z.shiftr_spec by lia. simpl Z.add.
      rewrite Z.shiftr_shiftr by lia.
      rewrite (wrap_small W W_gt_1).
      2:{ unfold is_int, min_int in *. pose proof (pow2_half_pos W W_gt_1). lia. }
      rewrite IH; trivial; try lia.
      * rewrite set_bits_succ.
        destruct (Z.testbit m0 bit); [now rewrite <- app_assoc | reflexivity].
      * rewrite <- Z.shiftr_shiftr by lia.
        rewrite (Z.shiftr_div_pow2 _ 1) by lia. change (2 ^ 1) with 2.
        apply Z.div_lt_upper_bound; [lia |].
        rewrite Nat2Z.inj_succ, Z.pow_succ_r in Hlt by lia. lia.
Qed.

(** [Decode] on a non-negative [int] returns within [W] evaluations of the
    loop condition, with the set positions below [W-1] in ascending order. *)
Lemma Decode_nonneg (fuel : nat) (mask : Z) :
  is_int W mask -> 0 <= mask -> (Z.to_nat W <= fuel)%nat ->
  Decode W fuel mask = Ret (set_bits mask 0 (Z.to_nat (W - 1))).
Proof.
  unfold is_int, max_int. intros Hm Hpos Hfuel.
  unfold Decode. rewrite <- (Z.shiftr_0_r mask) at 1.
  rewrite (Decode_loop_nonneg (Z.to_nat (W - 1))); trivial; try lia.
  - rewrite Z.shiftr_0_r, Z2Nat.id by lia. lia.
  - rewrite Z2Nat.id by lia. unfold max_int.
    pose proof (width_le_half W W_gt_1). lia.
Qed.

End DecodeSpecs.

(** * Properties of the package *)

Section Composition.

Variable W : Z.
Hypothesis W_gt_1 : 1 < W.

Lemma diverges_not_returns {A : Type} (run : nat -> result A) (a : A) :
  diverges run -> ~ returns run a.
Proof. intros Hd [fuel Hr]. rewrite Hd in Hr. discriminate. Qed.

(** Encoding the top identifier [W-1] sets the sign bit. *)
Lemma Encode_top : Encode W [W - 1] = Ret (min_int W).
Proof.
  unfold Encode. simpl. rewrite (shl_1 W) by lia. simpl.
  now rewrite (wrap_pow2_top W W_gt_1).
Qed.

Lemma min_int_negative : min_int W < 0.
Proof. unfold min_int. pose proof (pow2_half_pos W W_gt_1). lia. Qed.

Lemma min_int_is_int : is_int W (min_int W).
Proof.
  unfold is_int, max_int, min_int. pose proof (pow2_half_pos W W_gt_1). lia.
Qed.

(** Identifiers below the top position encode to a non-negative mask. *)
Lemma Encode_below_top (ids : list Z) :
  Forall (fun id => 0 <= id < W - 1) ids ->
  exists m, Encode W ids = Ret m /\ is_int W m /\ 0 <= m /\
    forall i, 0 <= i < W -> Z.testbit m i = existsb (Z.eqb i) ids.
Proof.
  intros Hids.
  destruct (Encode_valid W W_gt_1 ids) as (m & Hrun & Hint & Hbits).
  { eapply Forall_impl; [| exact Hids]. unfold valid_id. simpl. intros; lia. }
  exists m. split; [exact Hrun | split; [exact Hint | split; [| exact Hbits]]].
  assert (Htop : Z.testbit m (W - 1) = false).
  { rewrite Hbits by lia. apply not_true_is_false. intros Hin.
    apply existsb_eqb_In in Hin. rewrite Forall_forall in Hids.
    specialize (Hids _ Hin). lia. }
  rewrite (is_int_sign_bit W W_gt_1 m) in Htop by (trivial; lia).
  now apply Z.ltb_ge.
Qed.

(** Round trip on the identifiers [0 .. W-2]: decoding the encoding returns
    the ascending duplicate-free form of the input. *)
Theorem Decode_Encode_below_top (ids : list Z) (fuel : nat) :
  Forall (fun id => 0 <= id < W - 1) ids -> (Z.to_nat W <= fuel)%nat ->
  (m <- Encode W ids ;; Decode W fuel m) = Ret (sort_dedup ids).
Proof.
  intros Hids Hfuel.
  destruct (Encode_below_top ids Hids) as (m & Hrun & Hint & Hpos & Hbits).
  rewrite Hrun. simpl. rewrite (Decode_nonneg W W_gt_1) by trivial. f_equal.
  apply sorted_unique.
  - apply set_bits_sorted.
  - apply sort_dedup_sorted.
  - intros x. rewrite In_set_bits, In_sort_dedup, Z2Nat.id by lia. split.
    + intros [Hx Hbit]. rewrite Hbits in Hbit by lia.
      now apply existsb_eqb_In.
    + intros Hin. rewrite Forall_forall in Hids. pose proof (Hids _ Hin).
      split; [lia |]. rewrite Hbits by lia. now apply existsb_eqb_In.
Qed.

(** Round trip through the top identifier, at every width: the encoding of
    [[W-1]] is negative and its decoding never returns. *)
Lemma Decode_Encode_top_diverges :
  diverges (fun fuel => m <- Encode W [W - 1] ;; Decode W fuel m).
Proof.
  intros fuel. rewrite Encode_top. simpl.
  apply Decode_loop_negative, min_int_negative.
Qed.

End Composition.

(** * The stated properties, one by one *)

(** C1 (round trip), at the input that breaks it.  On 64-bit [int] the list
    [[63]] lies in the valid domain [[0, W-1]]; [Encode] returns the negative
    mask [-2^63], and [Decode] of that mask never returns, so
    [Decode(Encode([63]))] is not the ascending duplicate-free form [[63]]. *)
Theorem roundtrip_top_bit_never_returns :
  Forall (valid_id int_size) [63] /\
  Encode int_size [63] = Ret (- 2 ^ 63) /\
  diverges (fun fuel => m <- Encode int_size [63] ;; Decode int_size fuel m) /\
  ~ returns (fun fuel => m <- Encode int_size [63] ;; Decode int_size fuel m)
      (sort_dedup [63]).
Proof.
  assert (Hd : diverges
            (fun fuel => m <- Encode int_size [63] ;; Decode int_size fuel m)).
  { apply (Decode_Encode_top_diverges int_size). reflexivity. }
  split; [| split; [| split]].
  - repeat constructor; unfold valid_id, int_size; lia.
  - reflexivity.
  - exact Hd.
  - now apply diverges_not_returns.
Qed.

(** C2 (Decode terminates on every mask, negative ones included), refuted on
    the code: on every negative mask the loop of [Decode] runs forever, at
    every width, and so returns no list at all. *)
Theorem Decode_negative_mask_diverges (W mask : Z) :
  mask < 0 ->
  diverges (fun fuel => Decode W fuel mask) /\
  forall ids, ~ returns (fun fuel => Decode W fuel mask) ids.
Proof.
  intros Hneg.
  assert (Hd : diverges (fun fuel => Decode W fuel mask)).
  { intros fuel. now apply Decode_loop_negative. }
  split; [exact Hd |]. intros ids. now apply diverges_not_returns.
Qed.

Lemma Decode_negative_mask_diverges_witness :
  -1 < 0 /\
  (diverges (fun fuel => Decode int_size fuel (-1)) /\
   forall ids, ~ returns (fun fuel => Decode int_size fuel (-1)) ids).
Proof.
  split; [lia |]. apply (Decode_negative_mask_diverges int_size (-1)). lia.
Defined.

(** C3 (totality over the valid domain), at the input that breaks it: the
    smallest 64-bit [int], which is the mask [Encode] returns for [[63]], is an
    [int] on which [Decode] does not complete, whatever the fuel. *)
Theorem Decode_min_int_never_completes :
  is_int int_size (min_int int_size) /\
  forall fuel, Decode int_size fuel (min_int int_size) = OutOfFuel.
Proof.
  split.
  - apply min_int_is_int. reflexivity.
  - intros fuel. apply Decode_loop_negative, min_int_negative. reflexivity.
Qed.

Section Claims.

Variable W : Z.
Hypothesis W_gt_1 : 1 < W.

(** What does hold of totality: on identifiers of [[0, W-1]], [Encode],
    [HasBit] and [ToggleBit] return (every shift count is non-negative);
    [Decode] never panics, and returns on every non-negative mask. *)
Theorem total_except_Decode_negative (ids : list Z) (mask id : Z) :
  Forall (valid_id W) ids -> valid_id W id -> is_int W mask ->
  (exists m, Encode W ids = Ret m /\ is_int W m) /\
  (exists b, HasBit W mask id = Ret b) /\
  (exists m, ToggleBit W mask id = Ret m /\ is_int W m) /\
  (forall fuel, Decode W fuel mask <> Panic) /\
  (0 <= mask -> exists l, Decode W (Z.to_nat W) mask = Ret l).
Proof.
  intros Hids Hid Hm. pose proof Hid as [Hid0 _].
  split; [| split; [| split; [| split]]].
  - destruct (Encode_valid W W_gt_1 ids Hids) as (m & Hrun & Hint & _).
    now exists m.
  - exists (Z.testbit mask id). now apply HasBit_testbit.
  - exists (Z.lxor mask (wrap W (2 ^ id))). split.
    + now apply ToggleBit_ret.
    + now apply ToggleBit_is_int.
  - intros fuel. apply Decode_loop_no_panic.
  - intros Hpos. eexists. apply (Decode_nonneg W W_gt_1); trivial.
Qed.

(** C4 (bit independence): for every [int] mask [m] and identifier [id] of
    [[0, W-1]], [HasBit(m, id)] returns a boolean [b] and
    [HasBit(ToggleBit(m, id), id)] returns its negation. *)
Theorem HasBit_ToggleBit_same (m id : Z) :
  is_int W m -> valid_id W id ->
  exists b, HasBit W m id = Ret b /\
            (m' <- ToggleBit W m id ;; HasBit W m' id) = Ret (negb b).
Proof.
  intros Hm Hid. pose proof Hid as [Hid0 HidW].
  exists (Z.testbit m id). split; [now apply HasBit_testbit |].
  rewrite ToggleBit_ret by trivial. simpl.
  rewrite HasBit_testbit; trivial; [| now apply ToggleBit_is_int].
  rewrite Z.lxor_spec, (testbit_shl1_low W W_gt_1), Z.eqb_refl by (trivial; lia).
  now destruct (Z.testbit m id).
Qed.

(** C5 (toggle involution): for every mask [m] and identifier [id] of
    [[0, W-1]], [ToggleBit(ToggleBit(m, id), id)] returns [m]. *)
Theorem ToggleBit_involutive (m id : Z) :
  valid_id W id ->
  (m' <- ToggleBit W m id ;; ToggleBit W m' id) = Ret m.
Proof.
  intros [Hid0 _]. rewrite !ToggleBit_ret by trivial. simpl.
  rewrite ToggleBit_ret by trivial. f_equal.
  now rewrite Z.lxor_assoc, Z.lxor_nilpotent, Z.lxor_0_r.
Qed.

(** C6 (unrelated-bit preservation): for every [int] mask [m] and distinct
    identifiers [id1], [id2] of [[0, W-1]], [HasBit(ToggleBit(m, id1), id2)]
    returns what [HasBit(m, id2)] returns; moreover the toggled mask differs
    from [m] at position [id1] and at no other position of the width. *)
Theorem ToggleBit_other_bit (m id1 id2 : Z) :
  is_int W m -> valid_id W id1 -> valid_id W id2 -> id1 <> id2 ->
  exists b, HasBit W m id2 = Ret b /\
            (m' <- ToggleBit W m id1 ;; HasBit W m' id2) = Ret b /\
  exists m', ToggleBit W m id1 = Ret m' /\
             forall i, 0 <= i < W ->
               Z.testbit m' i = if i =? id1 then negb (Z.testbit m i)
                                else Z.testbit m i.
Proof.
  intros Hm H1 H2 Hne. pose proof H1 as [H10 _].
  assert (Hbits : forall i, 0 <= i < W ->
            Z.testbit (Z.lxor m (wrap W (2 ^ id1))) i =
            if i =? id1 then negb (Z.testbit m i) else Z.testbit m i).
  { intros i Hi. rewrite Z.lxor_spec, (testbit_shl1_low W W_gt_1) by trivial.
    destruct (i =? id1), (Z.testbit m i); reflexivity. }
  exists (Z.testbit m id2). split; [now apply HasBit_testbit |]. split.
  - rewrite ToggleBit_ret by trivial. simpl.
    rewrite HasBit_testbit; trivial; [| now apply ToggleBit_is_int].
    rewrite Hbits by exact H2.
    now replace (id2 =? id1) with false by (symmetry; apply Z.eqb_neq; congruence).
  - exists (Z.lxor m (wrap W (2 ^ id1))). split; [now apply ToggleBit_ret |].
    exact Hbits.
Qed.

End Claims.

Section MoreClaims.

Variable W : Z.
Hypothesis W_gt_1 : 1 < W.

(** C7 (idempotence under duplicates): for every list of identifiers of
    [[0, W-1]], [Encode] of the list and [Encode] of the list without its
    repeated elements return the same mask. *)
Theorem Encode_dedup (ids : list Z) :
  Forall (valid_id W) ids ->
  exists m, Encode W ids = Ret m /\ Encode W (dedup ids) = Ret m.
Proof.
  intros Hids.
  destruct (Encode_valid W W_gt_1 ids Hids) as (m & Hrun & _).
  exists m. split; trivial.
  rewrite <- Hrun. apply (Encode_same_members W W_gt_1).
  intros x. apply In_dedup.
Qed.

(** C9 (reverse round trip): for every non-negative [int] mask [m], [Decode]
    returns within [W] evaluations of its loop condition and [Encode] of the
    decoded list returns [m]. *)
Theorem Encode_Decode_nonneg (m : Z) (fuel : nat) :
  is_int W m -> 0 <= m -> (Z.to_nat W <= fuel)%nat ->
  (ids <- Decode W fuel m ;; Encode W ids) = Ret m.
Proof.
  intros Hm Hpos Hfuel.
  rewrite (Decode_nonneg W W_gt_1) by trivial. simpl.
  set (l := set_bits m 0 (Z.to_nat (W - 1))).
  assert (Hin : forall i, In i l <-> 0 <= i < W - 1 /\ Z.testbit m i = true).
  { intros i. unfold l. rewrite In_set_bits, Z2Nat.id by lia.
    now rewrite Z.add_0_l. }
  destruct (Encode_valid W W_gt_1 l) as (m' & Hrun & Hint & Hbits).
  { apply Forall_forall. intros i Hi. apply Hin in Hi. unfold valid_id. lia. }
  rewrite Hrun. f_equal.
  apply (is_int_eq_bits W W_gt_1); trivial.
  intros i Hi. rewrite Hbits by trivial.
  apply eq_true_iff_eq. rewrite existsb_eqb_In, Hin. split.
  - tauto.
  - intros Hbit. split; trivial.
    destruct (Z.eq_dec i (W - 1)) as [-> | Hne]; [| lia].
    rewrite (is_int_sign_bit W W_gt_1 m) in Hbit by (trivial; lia).
    apply Z.ltb_lt in Hbit. lia.
Qed.

(** C10 (membership agreement): for every list [ids] of identifiers of
    [[0, W-1]] and every identifier [id] of that range,
    [HasBit(Encode(ids), id)] returns a boolean, which is [true] if and only
    if [id] occurs in [ids]. *)
Theorem HasBit_Encode_In (ids : list Z) (id : Z) :
  Forall (valid_id W) ids -> valid_id W id ->
  exists b, (m <- Encode W ids ;; HasBit W m id) = Ret b /\
            (b = true <-> In id ids).
Proof.
  intros Hids Hid.
  destruct (Encode_valid W W_gt_1 ids Hids) as (m & Hrun & Hint & Hbits).
  exists (existsb (Z.eqb id) ids). split; [| apply existsb_eqb_In].
  rewrite Hrun. simpl. rewrite (HasBit_testbit W W_gt_1) by trivial.
  now rewrite Hbits.
Qed.

End MoreClaims.

(** The part of the contract of [Decode] that the code meets: on every
    non-negative [int] mask it returns within [W] evaluations of the loop
    condition; the returned list is strictly increasing, holds exactly the set
    positions of the mask inside the width, and is empty for the zero mask. *)
Theorem Decode_nonneg_ascending (W mask : Z) :
  1 < W -> is_int W mask -> 0 <= mask ->
  exists l, Decode W (Z.to_nat W) mask = Ret l /\
            StronglySorted Z.lt l /\
            (forall i, In i l <-> 0 <= i < W /\ Z.testbit mask i = true) /\
            (mask = 0 -> l = []).
Proof.
  intros HW Hm Hpos.
  exists (set_bits mask 0 (Z.to_nat (W - 1))).
  split; [apply (Decode_nonneg W HW); trivial; lia |].
  split; [apply set_bits_sorted |]. split.
  - intros i. rewrite In_set_bits, Z2Nat.id, Z.add_0_l by lia. split.
    + intros [Hi Hbit]. split; [lia | trivial].
    + intros [Hi Hbit]. split; trivial.
      destruct (Z.eq_dec i (W - 1)) as [-> | Hne]; [| lia].
      rewrite (is_int_sign_bit W HW mask) in Hbit by (trivial; lia).
      apply Z.ltb_lt in Hbit. lia.
  - intros ->. apply set_bits_none. intros i _. apply Z.bits_0.
Qed.

(** C8 (concrete scenarios) on 64-bit [int]: [Encode([])] returns 0,
    [Encode([1,3,5])] returns 42, [Encode([1,1,3])] returns 10, [Encode([31])]
    returns [2^31], [Decode(42)] returns [[1,3,5]], [Decode(15)] returns
    [[0,1,2,3]], [HasBit(42,3)] returns true, [HasBit(42,2)] returns false,
    [ToggleBit(0,2)] returns 4 and [ToggleBit(4,2)] returns 0. *)
Theorem concrete_scenarios :
  Encode int_size [] = Ret 0 /\
  Encode int_size [1; 3; 5] = Ret 42 /\
  Encode int_size [1; 1; 3] = Ret 10 /\
  Encode int_size [31] = Ret (2 ^ 31) /\
  returns (fun fuel => Decode int_size fuel 42) [1; 3; 5] /\
  returns (fun fuel => Decode int_size fuel 15) [0; 1; 2; 3] /\
  HasBit int_size 42 3 = Ret true /\
  HasBit int_size 42 2 = Ret false /\
  ToggleBit int_size 0 2 = Ret 4 /\
  ToggleBit int_size 4 2 = Ret 0.
Proof.
  repeat split; try reflexivity.
  - exists 7%nat. reflexivity.
  - exists 5%nat. reflexivity.
Qed.

(** * The properties at concrete inputs of 64-bit [int] *)

Lemma int_size_gt_1 : 1 < int_size.
Proof. reflexivity. Defined.

Lemma valid_id_3 : valid_id int_size 3.
Proof. unfold valid_id, int_size. lia. Defined.

Lemma valid_id_63 : valid_id int_size 63.
Proof. unfold valid_id, int_size. lia. Defined.

Lemma is_int_42 : is_int int_size 42.
Proof. unfold is_int. vm_compute. split; discriminate. Defined.

Lemma is_int_minus_6 : is_int int_size (-6).
Proof. unfold is_int. vm_compute. split; discriminate. Defined.

Lemma valid_ids_1_63_1 : Forall (valid_id int_size) [1; 63; 1].
Proof. repeat constructor; unfold int_size; lia. Defined.

Lemma below_top_5_1_5 : Forall (fun id => 0 <= id < int_size - 1) [5; 1; 5; 62].
Proof. repeat constructor; unfold int_size; lia. Defined.

Lemma total_except_Decode_negative_witness :
  (exists m, Encode int_size [1; 63; 1] = Ret m /\ is_int int_size m) /\
  (exists b, HasBit int_size 42 63 = Ret b) /\
  (exists m, ToggleBit int_size 42 63 = Ret m /\ is_int int_size m) /\
  (forall fuel, Decode int_size fuel 42 <> Panic) /\
  (0 <= 42 -> exists l, Decode int_size (Z.to_nat int_size) 42 = Ret l).
Proof.
  exact (total_except_Decode_negative int_size int_size_gt_1 [1; 63; 1] 42 63
           valid_ids_1_63_1 valid_id_63 is_int_42).
Defined.

Lemma HasBit_ToggleBit_same_witness :
  exists b, HasBit int_size (-6) 63 = Ret b /\
            (m' <- ToggleBit int_size (-6) 63 ;; HasBit int_size m' 63)
            = Ret (negb b).
Proof.
  exact (HasBit_ToggleBit_same int_size int_size_gt_1 (-6) 63
           is_int_minus_6 valid_id_63).
Defined.

Lemma ToggleBit_involutive_witness :
  (m' <- ToggleBit int_size 42 63 ;; ToggleBit int_size m' 63) = Ret 42.
Proof.
  exact (ToggleBit_involutive int_size 42 63 valid_id_63).
Defined.

Lemma ToggleBit_other_bit_witness :
  exists b, HasBit int_size 42 3 = Ret b /\
            (m' <- ToggleBit int_size 42 63 ;; HasBit int_size m' 3) = Ret b /\
  exists m', ToggleBit int_size 42 63 = Ret m' /\
             forall i, 0 <= i < int_size ->
               Z.testbit m' i = if i =? 63 then negb (Z.testbit 42 i)
                                else Z.testbit 42 i.
Proof.
  apply (ToggleBit_other_bit int_size int_size_gt_1 42 63 3
           is_int_42 valid_id_63 valid_id_3).
  discriminate.
Defined.

Lemma Encode_dedup_witness :
  exists m, Encode int_size [1; 63; 1] = Ret m /\
            Encode int_size (dedup [1; 63; 1]) = Ret m.
Proof.
  exact (Encode_dedup int_size int_size_gt_1 [1; 63; 1] valid_ids_1_63_1).
Defined.

Lemma Encode_Decode_nonneg_witness :
  (ids <- Decode int_size 64 42 ;; Encode int_size ids) = Ret 42.
Proof.
  apply (Encode_Decode_nonneg int_size int_size_gt_1 42 64 is_int_42).
  - discriminate.
  - vm_compute. lia.
Defined.

Lemma HasBit_Encode_In_witness :
  exists b, (m <- Encode int_size [1; 63; 1] ;; HasBit int_size m 63) = Ret b /\
            (b = true <-> In 63 [1; 63; 1]).
Proof.
  exact (HasBit_Encode_In int_size int_size_gt_1 [1; 63; 1] 63
           valid_ids_1_63_1 valid_id_63).
Defined.

Lemma Decode_Encode_below_top_witness :
  (m <- Encode int_size [5; 1; 5; 62] ;; Decode int_size 64 m)
  = Ret (sort_dedup [5; 1; 5; 62]).
Proof.
  apply (Decode_Encode_below_top int_size int_size_gt_1 [5; 1; 5; 62] 64
           below_top_5_1_5).
  vm_compute. lia.
Defined.

Lemma Decode_nonneg_ascending_witness :
  exists l, Decode int_size (Z.to_nat int_size) 42 = Ret l /\
            StronglySorted Z.lt l /\
            (forall i, In i l <-> 0 <= i < int_size /\ Z.testbit 42 i = true) /\
            (42 = 0 -> l = []).
Proof.
  apply (Decode_nonneg_ascending int_size 42 int_size_gt_1 is_int_42).
  discriminate.
Defined.

(** * Outside the valid domain, and how the functions compose *)

Section Outcomes.

Variable W : Z.
Hypothesis W_gt_1 : 1 < W.

Lemma shl_not_out_of_fuel (x n : Z) : shl W x n <> OutOfFuel.
Proof. unfold shl. destruct (n <? 0); discriminate. Qed.

Lemma shl_panic_iff (x n : Z) : shl W x n = Panic <-> n < 0.
Proof.
  unfold shl. destruct (n <? 0) eqn:E.
  - apply Z.ltb_lt in E. tauto.
  - apply Z.ltb_ge in E. split; [discriminate | lia].
Qed.

Lemma Encode_loop_nonneg_ret (ids : list Z) (mask : Z) :
  Forall (fun id => 0 <= id) ids -> exists m, Encode_loop W ids mask = Ret m.
Proof.
  intros Hids. revert mask.
  induction Hids as [| id ids Hid Hids IH]; intros mask; simpl.
  - now exists mask.
  - rewrite (shl_1 W) by trivial. simpl. apply IH.
Qed.

(** A count at or beyond the width shifts the only set bit of [1] out. *)
Lemma shl_1_beyond (id : Z) : W <= id -> shl W 1 id = Ret 0.
Proof.
  intros Hid. rewrite (shl_1 W) by lia. now rewrite (wrap_pow2_high W W_gt_1).
Qed.

Lemma Encode_loop_drop_beyond (ids : list Z) (mask : Z) :
  Encode_loop W ids mask =
  Encode_loop W (filter (fun id => id <? W) ids) mask.
Proof.
  revert mask. induction ids as [| id ids IH]; intros mask; simpl; trivial.
  destruct (id <? W) eqn:E; simpl.
  - destruct (shl W 1 id); simpl; trivial.
  - apply Z.ltb_ge in E. rewrite shl_1_beyond by trivial. simpl.
    rewrite Z.lor_0_r. apply IH.
Qed.

(** The accumulator of the loop only joins what the loop adds. *)
Lemma Encode_loop_lor (ids : list Z) (mask : Z) :
  Encode_loop W ids mask = (m <- Encode_loop W ids 0 ;; Ret (Z.lor mask m)).
Proof.
  revert mask. induction ids as [| id ids IH]; intros mask; simpl.
  - now rewrite Z.lor_0_r.
  - destruct (shl W 1 id) as [b | |]; simpl; trivial.
    rewrite (IH (Z.lor mask b)), (IH b).
    destruct (Encode_loop W ids 0) as [m | |]; simpl; trivial.
    now rewrite Z.lor_assoc.
Qed.

Lemma Encode_loop_app (l1 l2 : list Z) (mask : Z) :
  Encode_loop W (l1 ++ l2) mask =
  (m1 <- Encode_loop W l1 mask ;; Encode_loop W l2 m1).
Proof.
  revert mask. induction l1 as [| id l1 IH]; intros mask; simpl; trivial.
  destruct (shl W 1 id) as [b | |]; simpl; trivial.
Qed.

End Outcomes.

(** Panics: [Encode] panics exactly when some identifier of its input is
    negative and otherwise returns an [int]; [HasBit] and [ToggleBit] panic
    exactly on a negative identifier; [Decode] never panics. *)
Theorem panic_iff_negative_id (W : Z) (ids : list Z) (mask id : Z) :
  1 < W ->
  (Encode W ids = Panic <-> Exists (fun x => x < 0) ids) /\
  ((exists m, Encode W ids = Ret m /\ is_int W m) <->
   Forall (fun x => 0 <= x) ids) /\
  (HasBit W mask id = Panic <-> id < 0) /\
  (ToggleBit W mask id = Panic <-> id < 0) /\
  (forall fuel, Decode W fuel mask <> Panic).
Proof.
  intros HW.
  assert (Hret : Forall (fun x => 0 <= x) ids ->
                 exists m, Encode W ids = Ret m /\ is_int W m).
  { intros Hpos.
    destruct (Encode_loop_spec W HW ids 0 Hpos (is_int_0 W HW))
      as (m & Hrun & Hint & _).
    now exists m. }
  split; [| split; [| split; [| split]]].
  - split.
    + intros Hp. destruct (nonneg_or_negative ids) as [Hpos | Hneg]; trivial.
      destruct (Hret Hpos) as (m & Hrun & _). congruence.
    + intros Hneg. now apply Encode_loop_panic.
  - split; trivial.
    intros (m & Hrun & _).
    destruct (nonneg_or_negative ids) as [Hpos | Hneg]; trivial.
    unfold Encode in Hrun. rewrite Encode_loop_panic in Hrun by trivial.
    discriminate.
  - unfold HasBit. rewrite <- (shl_panic_iff W 1 id).
    destruct (shl W 1 id); simpl; split; trivial; discriminate.
  - unfold ToggleBit. rewrite <- (shl_panic_iff W 1 id).
    destruct (shl W 1 id); simpl; split; trivial; discriminate.
  - intros fuel. apply Decode_loop_no_panic.
Qed.

(** Identifiers at or beyond the width are dropped without any error:
    [HasBit] answers false, [ToggleBit] returns the mask unchanged, and
    [Encode] has the outcome it has on the input without them. *)
Theorem id_beyond_width_ignored (W : Z) (ids : list Z) (mask id : Z) :
  1 < W -> W <= id ->
  HasBit W mask id = Ret false /\
  ToggleBit W mask id = Ret mask /\
  Encode W (id :: ids) = Encode W ids /\
  Encode W ids = Encode W (filter (fun x => x <? W) ids).
Proof.
  intros HW Hid. unfold HasBit, ToggleBit, Encode.
  split; [| split; [| split]].
  - rewrite (shl_1_beyond W HW) by trivial. simpl. now rewrite Z.land_0_r.
  - rewrite (shl_1_beyond W HW) by trivial. simpl. now rewrite Z.lxor_0_r.
  - simpl. now rewrite (shl_1_beyond W HW) by trivial.
  - apply (Encode_loop_drop_beyond W HW).
Qed.

(** Encoding a concatenation: [Encode] of [l1 ++ l2] is the bitwise OR of the
    two encodings, and panics when either of them does. *)
Theorem Encode_app (W : Z) (l1 l2 : list Z) :
  Encode W (l1 ++ l2) =
  (m1 <- Encode W l1 ;; m2 <- Encode W l2 ;; Ret (Z.lor m1 m2)).
Proof.
  unfold Encode. rewrite Encode_loop_app.
  destruct (Encode_loop W l1 0) as [m1 | |]; simpl; trivial.
  apply Encode_loop_lor.
Qed.

(** The outcome of [Encode] depends only on which identifiers occur in its
    input: two lists with the same elements, in any order and with any
    multiplicities, have the same outcome (the same mask, or a panic). *)
Theorem Encode_set_extensional (W : Z) (l1 l2 : list Z) :
  1 < W -> (forall x, In x l1 <-> In x l2) ->
  Encode W l1 = Encode W l2 /\ Encode W (rev l1) = Encode W l1.
Proof.
  intros HW Hmem. split.
  - now apply Encode_same_members.
  - apply Encode_same_members; trivial. intros x. symmetry. apply in_rev.
Qed.

(** Where the round trip stops: as soon as the top identifier [W-1] occurs in
    a list of identifiers of [[0, W-1]], the encoding is a negative [int] and
    [Decode] of it never returns. *)
Theorem Decode_Encode_top_member_diverges (W : Z) (ids : list Z) :
  1 < W -> Forall (valid_id W) ids -> In (W - 1) ids ->
  exists m, Encode W ids = Ret m /\ m < 0 /\
            diverges (fun fuel => m' <- Encode W ids ;; Decode W fuel m').
Proof.
  intros HW Hids Htop.
  destruct (Encode_valid W HW ids Hids) as (m & Hrun & Hint & Hbits).
  assert (Hneg : m < 0).
  { apply Z.ltb_lt. rewrite <- (is_int_sign_bit W HW m (W - 1)) by (trivial; lia).
    rewrite Hbits by lia. now apply existsb_eqb_In. }
  exists m. split; [exact Hrun | split; [exact Hneg |]].
  intros fuel. rewrite Hrun. simpl. now apply Decode_loop_negative.
Qed.

(** [Decode] and [HasBit] agree: on a non-negative [int] mask and an
    identifier of [[0, W-1]], the identifier is in the decoded list exactly
    when [HasBit] answers true. *)
Theorem Decode_HasBit_agree (W mask id : Z) :
  1 < W -> is_int W mask -> 0 <= mask -> valid_id W id ->
  exists l b, Decode W (Z.to_nat W) mask = Ret l /\
              HasBit W mask id = Ret b /\
              (In id l <-> b = true).
Proof.
  intros HW Hm Hpos Hid. pose proof Hid as [Hid0 HidW].
  exists (set_bits mask 0 (Z.to_nat (W - 1))), (Z.testbit mask id).
  split; [apply (Decode_nonneg W HW); trivial; lia |].
  split; [now apply HasBit_testbit |].
  rewrite In_set_bits, Z2Nat.id, Z.add_0_l by lia. split; [tauto |].
  intros Hbit. split; trivial.
  destruct (Z.eq_dec id (W - 1)) as [-> | Hne]; [| lia].
  rewrite (is_int_sign_bit W HW mask) in Hbit by (trivial; lia).
  apply Z.ltb_lt in Hbit. lia.
Qed.

(** Toggles commute: toggling [a] then [b] has the outcome of toggling [b]
    then [a] (the same mask, or a panic when one of them is negative). *)
Theorem ToggleBit_commute (W m a b : Z) :
  (m1 <- ToggleBit W m a ;; ToggleBit W m1 b) =
  (m1 <- ToggleBit W m b ;; ToggleBit W m1 a).
Proof.
  unfold ToggleBit.
  destruct (shl W 1 a) as [x | |] eqn:Ea, (shl W 1 b) as [y | |] eqn:Eb;
    simpl; rewrite ?Ea, ?Eb; simpl; trivial;
    try (exfalso; eapply shl_not_out_of_fuel; eassumption).
  now rewrite !Z.lxor_assoc, (Z.lxor_comm x y).
Qed.

Lemma existsb_eqb_remove (i id : Z) (ids : list Z) :
  existsb (Z.eqb i) (remove Z.eq_dec id ids) =
  negb (i =? id) && existsb (Z.eqb i) ids.
Proof.
  apply eq_true_iff_eq.
  rewrite andb_true_iff, negb_true_iff, !existsb_eqb_In, Z.eqb_neq. split.
  - intros Hin. apply in_remove in Hin. tauto.
  - intros [Hne Hin]. now apply in_in_remove.
Qed.

(** Toggling on an encoding adds or removes a member: for identifiers of
    [[0, W-1]], [ToggleBit(Encode(ids), id)] returns the encoding of
    [id :: ids] when [id] does not occur in [ids], and the encoding of [ids]
    without every occurrence of [id] when it does. *)
Theorem ToggleBit_Encode (W : Z) (ids : list Z) (id : Z) :
  1 < W -> Forall (valid_id W) ids -> valid_id W id ->
  exists m, (m0 <- Encode W ids ;; ToggleBit W m0 id) = Ret m /\
            (~ In id ids -> Encode W (id :: ids) = Ret m) /\
            (In id ids -> Encode W (remove Z.eq_dec id ids) = Ret m).
Proof.
  intros HW Hids Hid. pose proof Hid as [Hid0 HidW].
  destruct (Encode_valid W HW ids Hids) as (m0 & Hrun & Hint & Hbits).
  exists (Z.lxor m0 (wrap W (2 ^ id))).
  assert (Htog : forall i, 0 <= i < W ->
            Z.testbit (Z.lxor m0 (wrap W (2 ^ id))) i =
            xorb (existsb (Z.eqb i) ids) (i =? id)).
  { intros i Hi.
    now rewrite Z.lxor_spec, Hbits, (testbit_shl1_low W HW) by trivial. }
  split; [| split].
  - rewrite Hrun. simpl. now apply ToggleBit_ret.
  - intros Hnot.
    destruct (Encode_valid W HW (id :: ids)) as (m1 & Hrun1 & Hint1 & Hbits1);
      [now constructor |].
    rewrite Hrun1. f_equal. apply (is_int_eq_bits W HW); trivial;
      [now apply ToggleBit_is_int |].
    intros i Hi. rewrite Hbits1, Htog by trivial. simpl.
    destruct (i =? id) eqn:E; [| now rewrite xorb_false_r].
    apply Z.eqb_eq in E. subst i.
    replace (existsb (Z.eqb id) ids) with false; trivial.
    symmetry. apply not_true_is_false. now rewrite existsb_eqb_In.
  - intros Hin.
    destruct (Encode_valid W HW (remove Z.eq_dec id ids))
      as (m1 & Hrun1 & Hint1 & Hbits1).
    { rewrite Forall_forall in *. intros x Hx. apply in_remove in Hx.
      now apply Hids. }
    rewrite Hrun1. f_equal. apply (is_int_eq_bits W HW); trivial;
      [now apply ToggleBit_is_int |].
    intros i Hi. rewrite Hbits1, Htog, existsb_eqb_remove by trivial.
    destruct (i =? id) eqn:E; simpl; [| now rewrite xorb_false_r].
    apply Z.eqb_eq in E. subst i.
    replace (existsb (Z.eqb id) ids) with true; trivial.
    symmetry. now apply existsb_eqb_In.
Qed.

(** ** Arithmetic reading of the masks *)

Section Arithmetic.

Variable W : Z.
Hypothesis W_gt_1 : 1 < W.

(** For an [int] mask, [mask & (1 << id)] is zero exactly when bit [id] of
    the mask is clear. *)
Lemma land_shl1_zero (mask id : Z) :
  is_int W mask -> valid_id W id ->
  (Z.land mask (wrap W (2 ^ id)) =? 0) = negb (Z.testbit mask id).
Proof.
  intros Hm Hid. pose proof Hid as [Hid0 _].
  pose proof (HasBit_testbit W W_gt_1 mask id Hm Hid) as H.
  unfold HasBit in H. rewrite (shl_1 W) in H by trivial. simpl in H.
  injection H as H. rewrite <- H. now rewrite negb_involutive.
Qed.

Lemma lor_disjoint_add (a b : Z) : Z.land a b = 0 -> Z.lor a b = a + b.
Proof.
  intros Hd. rewrite Z.add_nocarry_lxor by trivial.
  apply Z.bits_inj'. intros i Hi.
  rewrite Z.lor_spec, Z.lxor_spec.
  assert (Hi' : Z.testbit (Z.land a b) i = false) by (rewrite Hd; apply Z.bits_0).
  rewrite Z.land_spec in Hi'.
  now destruct (Z.testbit a i), (Z.testbit b i).
Qed.

Lemma lxor_clear_add (m b : Z) : Z.land m b = 0 -> Z.lxor m b = m + b.
Proof. intros Hd. symmetry. now apply Z.add_nocarry_lxor. Qed.

Lemma lxor_set_sub (m b : Z) : Z.land (Z.lxor m b) b = 0 -> Z.lxor m b = m - b.
Proof.
  intros Hd. pose proof (lxor_clear_add _ _ Hd) as H.
  rewrite Z.lxor_assoc, Z.lxor_nilpotent, Z.lxor_0_r in H. lia.
Qed.

End Arithmetic.

(** [HasBit] reads the two's complement bit of every [int] mask, negative
    ones included; at the top position [W-1] it answers whether the mask is
    negative. *)
Theorem HasBit_reads_bit (W mask id : Z) :
  1 < W -> is_int W mask -> valid_id W id ->
  HasBit W mask id = Ret (Z.testbit mask id) /\
  HasBit W mask (W - 1) = Ret (mask <? 0).
Proof.
  intros HW Hm Hid. split; [now apply HasBit_testbit |].
  rewrite HasBit_testbit; trivial; [| unfold valid_id; lia].
  f_equal. apply (is_int_sign_bit W HW); trivial. lia.
Qed.

(** Toggling is an addition or a subtraction: on an [int] mask and an
    identifier of [[0, W-1]], [ToggleBit] returns the mask plus [1 << id] when
    bit [id] was clear and the mask minus [1 << id] when it was set, where
    [1 << id] is [2^id] below the top position and [-2^(W-1)] at the top
    position; the result is an [int] (nothing overflows). *)
Theorem ToggleBit_add_or_sub (W mask id : Z) :
  1 < W -> is_int W mask -> valid_id W id ->
  exists m b, ToggleBit W mask id = Ret m /\ is_int W m /\
    b = (if id =? W - 1 then - 2 ^ (W - 1) else 2 ^ id) /\
    m = (if Z.testbit mask id then mask - b else mask + b).
Proof.
  intros HW Hm Hid. pose proof Hid as [Hid0 HidW].
  exists (Z.lxor mask (wrap W (2 ^ id))), (wrap W (2 ^ id)).
  split; [now apply ToggleBit_ret |].
  split; [now apply ToggleBit_is_int |]. split.
  - destruct (id =? W - 1) eqn:E.
    + apply Z.eqb_eq in E. subst id. apply (wrap_pow2_top W HW).
    + apply Z.eqb_neq in E. apply (wrap_pow2_low W HW). lia.
  - pose proof (land_shl1_zero W HW mask id Hm Hid) as Hz.
    pose proof (land_shl1_zero W HW _ id (ToggleBit_is_int W HW mask id Hm) Hid)
      as Hz'.
    rewrite Z.lxor_spec, (testbit_shl1_low W HW), Z.eqb_refl in Hz'
      by (trivial; lia).
    destruct (Z.testbit mask id); simpl in Hz, Hz'.
    + apply lxor_set_sub. now apply Z.eqb_eq.
    + apply lxor_clear_add. now apply Z.eqb_eq.
Qed.

(** The encoding of distinct identifiers below the top position is the sum
    of their powers of two. *)
Theorem Encode_sum_of_powers (W : Z) (ids : list Z) :
  1 < W -> NoDup ids -> Forall (fun id => 0 <= id < W - 1) ids ->
  Encode W ids = Ret (fold_right (fun id s => 2 ^ id + s) 0 ids).
Proof.
  intros HW Hnd. induction Hnd as [| id ids Hnot Hnd IH]; intros Hids.
  - reflexivity.
  - inversion Hids as [| ? ? Hid Hids']; subst.
    specialize (IH Hids').
    destruct (Encode_below_top W HW ids Hids') as (m & Hrun & Hint & Hpos & Hbits).
    unfold Encode in *. simpl.
    rewrite (shl_1 W), (wrap_pow2_low W HW) by lia. simpl.
    rewrite Encode_loop_lor, Hrun. simpl.
    rewrite Hrun in IH. injection IH as IH. rewrite <- IH. f_equal.
    apply lor_disjoint_add.
    apply Z.bits_inj'. intros i Hi.
    rewrite Z.land_spec, Z.bits_0, Z.pow2_bits_eqb by lia.
    destruct (id =? i) eqn:E; trivial.
    apply Z.eqb_eq in E. subst i. rewrite Hbits by lia. simpl.
    apply not_true_is_false. now rewrite existsb_eqb_In.
Qed.

(** The cost of [Decode]: on a positive [int] mask the loop condition is
    evaluated exactly [log2 mask + 2] times (the body runs once per position
    up to the highest set bit): less fuel leaves the loop running, and that
    much fuel or more gives the result. *)
Theorem Decode_iterations (W mask : Z) (fuel : nat) :
  1 < W -> is_int W mask -> 0 < mask ->
  (Decode W fuel mask = OutOfFuel <-> (fuel <= Z.to_nat (Z.log2 mask) + 1)%nat) /\
  ((Z.to_nat (Z.log2 mask) + 2 <= fuel)%nat ->
   Decode W fuel mask = Ret (set_bits mask 0 (Z.to_nat (Z.log2 mask) + 1))).
Proof.
  intros HW Hm Hpos.
  assert (Hlow : forall f m bit ids, 0 < m ->
            (f <= Z.to_nat (Z.log2 m) + 1)%nat ->
            Decode_loop W f m bit ids = OutOfFuel).
  { induction f as [| f IH]; intros m bit ids Hm0 Hf; simpl; trivial.
    replace (m =? 0) with false by (symmetry; apply Z.eqb_neq; lia). simpl.
    assert (Hsh : Z.log2 (Z.shiftr m 1) = Z.max 0 (Z.log2 m - 1))
      by (apply Z.log2_shiftr; lia).
    pose proof (Z.log2_nonneg m) as Hl.
    destruct (Z.eq_dec (Z.log2 m) 0) as [E0 | Hne].
    - rewrite E0 in Hf. simpl in Hf.
      assert (f = 0%nat) by lia. subst f. reflexivity.
    - apply IH.
      + assert (0 <= Z.shiftr m 1) by (apply Z.shiftr_nonneg; lia).
        destruct (Z.eq_dec (Z.shiftr m 1) 0) as [E | ?]; [| lia].
        rewrite Z.shiftr_div_pow2 in E by lia. change (2 ^ 1) with 2 in E.
        assert (m = 1) by (pose proof (Z.div_mod m 2 ltac:(lia));
                           pose proof (Z.mod_pos_bound m 2 ltac:(lia)); lia).
        subst m. now elim Hne.
      + rewrite Hsh. lia. }
  assert (Hlog : Z.log2 mask < W - 1).
  { apply Z.log2_lt_pow2; trivial. unfold is_int, max_int in Hm. lia. }
  pose proof (Z.log2_nonneg mask) as Hl.
  assert (Hhigh : (Z.to_nat (Z.log2 mask) + 2 <= fuel)%nat ->
                  Decode W fuel mask =
                  Ret (set_bits mask 0 (Z.to_nat (Z.log2 mask) + 1))).
  { intros Hf. unfold Decode. rewrite <- (Z.shiftr_0_r mask) at 1.
    rewrite (Decode_loop_nonneg W HW (Z.to_nat (Z.log2 mask) + 1));
      trivial; try lia.
    - rewrite Z.shiftr_0_r.
      replace (Z.of_nat (Z.to_nat (Z.log2 mask) + 1)) with (Z.succ (Z.log2 mask))
        by lia.
      apply Z.log2_spec. lia.
    - pose proof (width_le_half W HW). unfold max_int. lia. }
  split; trivial. split.
  - intros Hout.
    destruct (Nat.le_gt_cases fuel (Z.to_nat (Z.log2 mask) + 1)) as [? | Hgt];
      trivial.
    rewrite Hhigh in Hout by lia. discriminate.
  - intros Hf. now apply Hlow.
Qed.

(** ** The same properties at concrete inputs of 64-bit [int] *)

Lemma width_le_64 : int_size <= 64.
Proof. unfold int_size. lia. Defined.

Lemma same_members_131_31 : forall x, In x [1; 3; 1] <-> In x [3; 1].
Proof. intros x. simpl. tauto. Defined.

Lemma NoDup_5_1_62 : NoDup [5; 1; 62].
Proof.
  repeat constructor; simpl; intros H;
    repeat (destruct H as [H | H]; [discriminate H |]); exact H.
Defined.

Lemma below_top_5_1_62 : Forall (fun id => 0 <= id < int_size - 1) [5; 1; 62].
Proof. repeat constructor; unfold int_size; lia. Defined.

Lemma In_63_1_63_1 : In (int_size - 1) [1; 63; 1].
Proof. right. left. reflexivity. Defined.

Lemma panic_iff_negative_id_witness :
  (Encode int_size [1; -2; 3] = Panic <-> Exists (fun x => x < 0) [1; -2; 3]) /\
  ((exists m, Encode int_size [1; -2; 3] = Ret m /\ is_int int_size m) <->
   Forall (fun x => 0 <= x) [1; -2; 3]) /\
  (HasBit int_size 42 (-1) = Panic <-> -1 < 0) /\
  (ToggleBit int_size 42 (-1) = Panic <-> -1 < 0) /\
  (forall fuel, Decode int_size fuel 42 <> Panic).
Proof.
  exact (panic_iff_negative_id int_size [1; -2; 3] 42 (-1) int_size_gt_1).
Defined.

Lemma id_beyond_width_ignored_witness :
  HasBit int_size 42 64 = Ret false /\
  ToggleBit int_size 42 64 = Ret 42 /\
  Encode int_size (64 :: [1; 70; 3]) = Encode int_size [1; 70; 3] /\
  Encode int_size [1; 70; 3] =
  Encode int_size (filter (fun x => x <? int_size) [1; 70; 3]).
Proof.
  exact (id_beyond_width_ignored int_size [1; 70; 3] 42 64
           int_size_gt_1 width_le_64).
Defined.

Lemma Encode_set_extensional_witness :
  Encode int_size [1; 3; 1] = Encode int_size [3; 1] /\
  Encode int_size (rev [1; 3; 1]) = Encode int_size [1; 3; 1].
Proof.
  exact (Encode_set_extensional int_size [1; 3; 1] [3; 1]
           int_size_gt_1 same_members_131_31).
Defined.

Lemma Decode_Encode_top_member_diverges_witness :
  exists m, Encode int_size [1; 63; 1] = Ret m /\ m < 0 /\
            diverges (fun fuel => m' <- Encode int_size [1; 63; 1] ;;
                                  Decode int_size fuel m').
Proof.
  exact (Decode_Encode_top_member_diverges int_size [1; 63; 1]
           int_size_gt_1 valid_ids_1_63_1 In_63_1_63_1).
Defined.

Lemma Decode_HasBit_agree_witness :
  exists l b, Decode int_size (Z.to_nat int_size) 42 = Ret l /\
              HasBit int_size 42 3 = Ret b /\
              (In 3 l <-> b = true).
Proof.
  apply (Decode_HasBit_agree int_size 42 3 int_size_gt_1 is_int_42);
    [discriminate | exact valid_id_3].
Defined.

Lemma ToggleBit_Encode_witness :
  exists m, (m0 <- Encode int_size [1; 63; 1] ;; ToggleBit int_size m0 63) = Ret m /\
            (~ In 63 [1; 63; 1] -> Encode int_size (63 :: [1; 63; 1]) = Ret m) /\
            (In 63 [1; 63; 1] ->
             Encode int_size (remove Z.eq_dec 63 [1; 63; 1]) = Ret m).
Proof.
  exact (ToggleBit_Encode int_size [1; 63; 1] 63
           int_size_gt_1 valid_ids_1_63_1 valid_id_63).
Defined.

Lemma HasBit_reads_bit_witness :
  HasBit int_size (-6) 3 = Ret (Z.testbit (-6) 3) /\
  HasBit int_size (-6) (int_size - 1) = Ret (-6 <? 0).
Proof.
  exact (HasBit_reads_bit int_size (-6) 3
           int_size_gt_1 is_int_minus_6 valid_id_3).
Defined.

Lemma ToggleBit_add_or_sub_witness :
  exists m b, ToggleBit int_size (-6) 63 = Ret m /\ is_int int_size m /\
    b = (if 63 =? int_size - 1 then - 2 ^ (int_size - 1) else 2 ^ 63) /\
    m = (if Z.testbit (-6) 63 then -6 - b else -6 + b).
Proof.
  exact (ToggleBit_add_or_sub int_size (-6) 63
           int_size_gt_1 is_int_minus_6 valid_id_63).
Defined.

Lemma Encode_sum_of_powers_witness :
  Encode int_size [5; 1; 62] =
  Ret (fold_right (fun id s => 2 ^ id + s) 0 [5; 1; 62]).
Proof.
  exact (Encode_sum_of_powers int_size [5; 1; 62]
           int_size_gt_1 NoDup_5_1_62 below_top_5_1_62).
Defined.

Lemma Decode_iterations_witness :
  (Decode int_size 7 42 = OutOfFuel <-> (7 <= Z.to_nat (Z.log2 42) + 1)%nat) /\
  ((Z.to_nat (Z.log2 42) + 2 <= 7)%nat ->
   Decode int_size 7 42 = Ret (set_bits 42 0 (Z.to_nat (Z.log2 42) + 1))).
Proof.
  apply (Decode_iterations int_size 42 7 int_size_gt_1 is_int_42).
  reflexivity.
Defined.
